(** * The peer directory and the self address manager of js-libp2p

    A shallow embedding of [src/peer-store/index.js] (class [PeerStore]) and
    of the address manager exercised by [test/addresses/address-manager.spec.ts],
    with the properties stated about them. *)

From stdpp Require Import gmap strings list fin_maps.

(** ** Errors and the state-and-exception monad

    A JavaScript method reads and mutates [this] and either returns a value
    or throws; a thrown error keeps whatever mutation happened before it. *)

Inductive error : Type := ERR_INVALID_PARAMETERS.

Inductive result (A : Type) : Type :=
| Ok (a : A)
| Throw (e : error).
Arguments Ok {A} a.
Arguments Throw {A} e.

Definition M (S A : Type) : Type := S → result A * S.

Definition throw {S A : Type} (e : error) : M S A := λ s, (Throw e, s).

#[global] Instance M_ret {S : Type} : MRet (M S) := λ A a s, (Ok a, s).

#[global] Instance M_bind {S : Type} : MBind (M S) := λ A B k m s,
  match m s with
  | (Ok a, s') => k a s'
  | (Throw e, s') => (Throw e, s')
  end.

(** ** Collaborators: peer identifiers, addresses, JavaScript arguments *)

(** Modelled from the spec: the [peer-id] codec is an external library.  A
    Peer Identifier is an opaque identity with a canonical string encoding
    that is stable and injective; [createFromCID] decodes that encoding. *)
Module PeerId.
Record t : Type := mk { toB58String : string }.

Definition createFromCID (idStr : string) : t := mk idStr.

Definition toString (p : t) : string := toB58String p.

#[global] Instance eq_dec : EqDecision t.
Proof. solve_decision. Defined.
End PeerId.

(** Modelled from the spec: an Address Value ([multiaddr]) is a canonical
    structured value, a sequence of (protocol code, value) components,
    compared by equality of that canonical form. *)
Definition Component : Type := N * string.
Abbreviation Multiaddr := (list Component).

(** The protocol code of the [/p2p/<peer id>] component. *)
Definition P2P : N := 421%N.

(** An entry of the address book: a multiaddr (with its metadata). *)
Record Address : Type := { multiaddr : Multiaddr }.

(** What a caller may pass where a [PeerId] is expected. *)
Inductive value : Type :=
| VPeerId (p : PeerId.t)
| VString (s : string)
| VNumber (n : Z)
| VNull
| VUndefined.

(** [PeerId.isPeerId] *)
Definition isPeerId (v : value) : bool :=
  match v with
  | VPeerId _ => true
  | _ => false
  end.

(** ** The two books *)

(** Modelled from the spec: [./address-book] and [./proto-book], which
    [index.js] requires, are described by sections 4.3, 4.4 and 7 only.  A
    book is a map keyed by the string encoding of a Peer Identifier, the
    [data] that [peers] iterates over. *)
Module Book.
Record t (V : Type) : Type := mk { data : gmap string V }.
Arguments mk {V} data.
Arguments data {V} _.

Section ops.
Context {V A : Type} (toArray : V → list A).

(** Modelled from the spec: [get(id)] gives the sequence known for [id], or
    an empty result ([undefined], here [None]) if there is no entry; a
    malformed identifier fails with InvalidArgument.  [toArray] turns the
    stored value into the array handed out. *)
Definition get (peerId : value) : M (t V) (option (list A)) :=
  match peerId with
  | VPeerId p => λ b, (Ok (toArray <$> data b !! PeerId.toB58String p), b)
  | _ => throw ERR_INVALID_PARAMETERS
  end.

(** Modelled from the spec: [delete(id)] is true iff an entry existed and
    was removed; a malformed identifier fails with InvalidArgument. *)
Definition delete (peerId : value) : M (t V) bool :=
  match peerId with
  | VPeerId p => λ b,
      let idStr := PeerId.toB58String p in
      match data b !! idStr with
      | Some _ => (Ok true, mk (base.delete idStr (data b)))
      | None => (Ok false, b)
      end
  | _ => throw ERR_INVALID_PARAMETERS
  end.
End ops.
End Book.

(** The address book stores arrays of [Address]; the protocol book stores
    sets of protocol identifiers, handed out as arrays. *)
Abbreviation AddressBook := (Book.t (list Address)).
Abbreviation ProtoBook := (Book.t (gset string)).

(** [Array.from(set)] *)
Definition Array_from (s : gset string) : list string := elements s.

(** ** [class PeerStore] *)

Record Peer : Type := {
  id : PeerId.t;
  addresses : list Address;
  protocols : list string
}.

Record PeerStore : Type := {
  addressBook : AddressBook;
  protoBook : ProtoBook;
  peerIds : gmap string PeerId.t
}.

(** Running a method of one of the books owned by the store. *)
Definition onAddressBook {A : Type} (m : M AddressBook A) : M PeerStore A :=
  λ this,
    let '(r, b) := m (addressBook this) in
    (r, {| addressBook := b; protoBook := protoBook this; peerIds := peerIds this |}).

Definition onProtoBook {A : Type} (m : M ProtoBook A) : M PeerStore A :=
  λ this,
    let '(r, b) := m (protoBook this) in
    (r, {| addressBook := addressBook this; protoBook := b; peerIds := peerIds this |}).

Module PeerStoreOps.

(** [get peers ()].  The two [for ... of] loops over the books' maps are
    folds that thread the map under construction; the result is a map, read
    by key, so the order in which the entries are visited does not show. *)
Definition peers : M PeerStore (gmap string Peer) :=
  λ this,
    (peersData ←
       map_fold
         (λ idStr addresses (acc : M PeerStore (gmap string Peer)),
            peersData ← acc;
            let id := PeerId.createFromCID idStr in
            protocols ← onProtoBook (Book.get Array_from (VPeerId id));
            mret (<[idStr := {| id := id;
                                addresses := addresses;
                                protocols := default [] protocols |}]> peersData))
         (mret ∅)
         (Book.data (addressBook this));
     map_fold
       (λ idStr protocols (acc : M PeerStore (gmap string Peer)),
          peersData ← acc;
          match peersData !! idStr with
          | Some pData => mret peersData
          | None =>
              mret (<[idStr := {| id := PeerId.createFromCID idStr;
                                  addresses := [];
                                  protocols := Array_from protocols |}]> peersData)
          end)
       (mret peersData)
       (Book.data (protoBook this))) this.

(** [delete (peerId)] *)
Definition delete (peerId : value) : M PeerStore bool :=
  addressesDeleted ← onAddressBook (Book.delete peerId);
  protocolsDeleted ← onProtoBook (Book.delete peerId);
  mret (addressesDeleted || protocolsDeleted).

(** [get (peerId)]; the result [None] is JavaScript's [undefined].  The guard
    [!PeerId.isPeerId(peerId)] is the last branch: every argument other than
    a [PeerId] throws before a book is consulted. *)
Definition get (peerId : value) : M PeerStore (option Peer) :=
  match peerId with
  | VPeerId p =>
      λ this,
        (let id := peerIds this !! PeerId.toB58String p in
         addresses ← onAddressBook (Book.get (λ a : list Address, a) peerId);
         protocols ← onProtoBook (Book.get Array_from peerId);
         match addresses, protocols with
         | None, None => mret None
         | _, _ =>
             mret (Some {| id := default p id;
                           addresses := default [] addresses;
                           protocols := default [] protocols |})
         end) this
  | _ => throw ERR_INVALID_PARAMETERS
  end.

(** [constructor ()]: two books with nothing written to them yet, and no
    peer-id instance kept. *)
Definition new : PeerStore :=
  {| addressBook := Book.mk ∅;
     protoBook := Book.mk ∅;
     peerIds := ∅ |}.

End PeerStoreOps.

(** The record the first pass of [peers] writes for an address-book entry,
    and the one its second pass writes for a protocol-book entry. *)
Definition fromAddresses (this : PeerStore) (idStr : string) (addrs : list Address) : Peer :=
  {| id := PeerId.createFromCID idStr;
     addresses := addrs;
     protocols := default [] (Array_from <$> Book.data (protoBook this) !! idStr) |}.

Definition fromProtocols (idStr : string) (protos : gset string) : Peer :=
  {| id := PeerId.createFromCID idStr;
     addresses := [];
     protocols := Array_from protos |}.

(** What [peers] holds under the key [idStr]. *)
Definition listed (this : PeerStore) (idStr : string) : option Peer :=
  match Book.data (addressBook this) !! idStr with
  | Some addrs => Some (fromAddresses this idStr addrs)
  | None => fromProtocols idStr <$> Book.data (protoBook this) !! idStr
  end.

(** The store once [idStr] is gone from both books. *)
Definition without (idStr : string) (this : PeerStore) : PeerStore :=
  {| addressBook := Book.mk (delete idStr (Book.data (addressBook this)));
     protoBook := Book.mk (delete idStr (Book.data (protoBook this)));
     peerIds := peerIds this |}.

(** ** The self address manager

    [test/addresses/address-manager.spec.ts] exercises
    [DefaultAddressManager] of [src/address-manager/index.js]; the manager
    itself is described by section 4.1 of the specification, from which every
    definition of this module is taken. *)
Module AddressManager.

(** Modelled from the spec: the Address Filter capability, a total pure
    function from a sequence of Address Values to the subset permitted for
    announcement; it only removes elements and never reorders them. *)
Record AddressFilter : Type := {
  filter : list Multiaddr → list Multiaddr;
  filter_sublist : ∀ addrs, filter addrs `sublist_of` addrs
}.

(** Modelled from the spec: the transport collaborator answers the query
    "what addresses am I currently listening on across active transports". *)
Record TransportManager : Type := { getAddrs : list Multiaddr }.

Record Components : Type := {
  peerId : PeerId.t;
  transportManager : TransportManager
}.

Module Init.
Record t : Type := {
  listen : option (list Multiaddr);
  announce : option (list Multiaddr);
  announceFilter : AddressFilter
}.
End Init.

(** Modelled from the spec: the [change:addresses] notification. *)
Inductive Event : Type := change_addresses.

(** Modelled from the spec: the manager owns the local identity and the
    transport collaborator (its components), the listen and announce
    sequences fixed at construction, the Address Filter, the observed and
    confirmed sets, and the notifications it has dispatched so far. *)
Record DefaultAddressManager : Type := {
  components : Components;
  listen : list Multiaddr;
  announce : list Multiaddr;
  announceFilter : AddressFilter;
  observed : list Multiaddr;
  confirmed : list Multiaddr;
  dispatched : list Event
}.

(** Modelled from the spec: [new DefaultAddressManager(components, init)];
    [listen] and [announce] default to empty, nothing is observed or
    confirmed yet. *)
Definition new (components : Components) (init : Init.t) : DefaultAddressManager :=
  {| components := components;
     listen := default [] (Init.listen init);
     announce := default [] (Init.announce init);
     announceFilter := Init.announceFilter init;
     observed := [];
     confirmed := [];
     dispatched := [] |}.

(** [multiaddr(`${ma.toString()}/p2p/${peerId.toString()}`)] of the test:
    [ma] with the identity component appended. *)
Definition encapsulate (ma : Multiaddr) (peerId : PeerId.t) : Multiaddr :=
  ma ++ [(P2P, PeerId.toString peerId)].

(** The trailing component of [ma] is the identity [peerId]. *)
Definition endsWithPeerId (ma : Multiaddr) (peerId : PeerId.t) : bool :=
  bool_decide (last ma = Some (P2P, PeerId.toString peerId)).

(** Modelled from the spec: strips the trailing self-identity component if
    the address is suffixed with the local Peer Identifier, so that what is
    stored never has the local Peer Identifier as its trailing component
    (section 3): trailing components are dropped as long as they are the own
    identity, and a component is trailing when nothing is kept after it. *)
Fixpoint stripPeerId (ma : Multiaddr) (peerId : PeerId.t) : Multiaddr :=
  match ma with
  | [] => []
  | c :: rest =>
      match stripPeerId rest peerId with
      | [] => if bool_decide (c = (P2P, PeerId.toString peerId)) then [] else [c]
      | kept => c :: kept
      end
  end.

(** Modelled from the spec: the configured listen set, order-preserving,
    unfiltered. *)
Definition getListenAddrs (am : DefaultAddressManager) : list Multiaddr :=
  listen am.

(** Modelled from the spec: the configured announce set passed through the
    Address Filter.  The getter itself derives nothing from the listen
    addresses or the transports: with listen addresses configured and no
    announce address, the test "should return listen multiaddrs on get"
    expects it to be empty. *)
Definition getAnnounceAddrs (am : DefaultAddressManager) : list Multiaddr :=
  filter (announceFilter am) (announce am).

(** Modelled from the spec: the current observed set, without duplicates. *)
Definition getObservedAddrs (am : DefaultAddressManager) : list Multiaddr :=
  observed am.

(** Modelled from the spec: strips the address, then inserts it into the
    observed set iff no equal Address Value is already present; no
    notification. *)
Definition addObservedAddr (addr : Multiaddr) (am : DefaultAddressManager)
  : DefaultAddressManager :=
  let addr := stripPeerId addr (peerId (components am)) in
  if bool_decide (addr ∈ observed am) then am
  else
    {| components := components am;
       listen := listen am;
       announce := announce am;
       announceFilter := announceFilter am;
       observed := observed am ++ [addr];
       confirmed := confirmed am;
       dispatched := dispatched am |}.

(** Modelled from the spec: the same stripping and deduplication, writing
    into the confirmed set, with one [change:addresses] notification the
    first time a canonical Address Value becomes confirmed. *)
Definition confirmObservedAddr (addr : Multiaddr) (am : DefaultAddressManager)
  : DefaultAddressManager :=
  let addr := stripPeerId addr (peerId (components am)) in
  if bool_decide (addr ∈ confirmed am) then am
  else
    {| components := components am;
       listen := listen am;
       announce := announce am;
       announceFilter := announceFilter am;
       observed := observed am;
       confirmed := confirmed am ++ [addr];
       dispatched := dispatched am ++ [change_addresses] |}.

(** [eventCount] of the test: the number of [change:addresses]
    notifications a listener registered at construction has received. *)
Definition eventCount (am : DefaultAddressManager) : nat :=
  length (dispatched am).

(** The calls a client can make, and the states they reach. *)
Inductive call : Type :=
| GetListenAddrs
| GetAnnounceAddrs
| GetObservedAddrs
| AddObservedAddr (addr : Multiaddr)
| ConfirmObservedAddr (addr : Multiaddr).

Definition step (am : DefaultAddressManager) (c : call) : DefaultAddressManager :=
  match c with
  | GetListenAddrs | GetAnnounceAddrs | GetObservedAddrs => am
  | AddObservedAddr addr => addObservedAddr addr am
  | ConfirmObservedAddr addr => confirmObservedAddr addr am
  end.

Definition run (am : DefaultAddressManager) (cs : list call) : DefaultAddressManager :=
  foldl step am cs.

(** No stored address ends with the identity [p]. *)
Definition stripped (p : PeerId.t) (am : DefaultAddressManager) : Prop :=
  ∀ addr, addr ∈ observed am ∨ addr ∈ confirmed am → endsWithPeerId addr p = false.

(** The identity filter, a valid default. *)
Program Definition defaultAddressFilter : AddressFilter :=
  {| filter := λ addrs, addrs |}.
Next Obligation. reflexivity. Qed.

End AddressManager.

(** ** Sample data, after the fixtures of the test suite *)

Module Fixtures.
Import AddressManager.

Definition IP4 : N := 4%N.
Definition TCP : N := 6%N.
Definition DNS4 : N := 54%N.
Definition WS : N := 477%N.

Definition self : PeerId.t := PeerId.mk "QmSelf".

Definition listenAddresses : list Multiaddr :=
  [ [(IP4, "127.0.0.1"); (TCP, "15006"); (WS, "")];
    [(IP4, "127.0.0.1"); (TCP, "15008"); (WS, "")] ].

Definition announceAddreses : list Multiaddr := [ [(DNS4, "peer.io")] ].

Definition ma : Multiaddr := [(IP4, "123.123.123.123"); (TCP, "39201")].

(** A transport collaborator with nothing to report, and one listening on
    [ma]. *)
Definition idle : Components :=
  {| peerId := self; transportManager := {| getAddrs := [] |} |}.

Definition listening : Components :=
  {| peerId := self; transportManager := {| getAddrs := [ma] |} |}.

Definition noConfig : Init.t :=
  {| Init.listen := None;
     Init.announce := None;
     Init.announceFilter := defaultAddressFilter |}.

Definition listenAndAnnounce : Init.t :=
  {| Init.listen := Some listenAddresses;
     Init.announce := Some announceAddreses;
     Init.announceFilter := defaultAddressFilter |}.

(** Calls in which the own identity arrives not at all, twice and once. *)
Definition calls : list call :=
  [ AddObservedAddr ma;
    AddObservedAddr (encapsulate (encapsulate ma self) self);
    GetObservedAddrs;
    ConfirmObservedAddr (encapsulate ma self) ].

(** A directory knowing [QmX] by address only and [QmY] by protocol only. *)
Definition directory : PeerStore :=
  {| addressBook := Book.mk {[ "QmX" := [ {| multiaddr := ma |} ] ]};
     protoBook := Book.mk {[ "QmY" := {[ "/ipfs/id/1.0.0" ]} ]};
     peerIds := ∅ |}.

(** The same directory with [QmE] known to the address book with no address
    left. *)
Definition directoryWithEmptyEntry : PeerStore :=
  {| addressBook := Book.mk (<[ "QmE" := [] ]> (Book.data (addressBook directory)));
     protoBook := protoBook directory;
     peerIds := peerIds directory |}.

End Fixtures.

(** * Properties of the peer directory *)

(** ** Running the monad *)

Lemma bind_Ok {S A B : Type} (m : M S A) (k : A → M S B) (s s' : S) (a : A) :
  m s = (Ok a, s') → (m ≫= k) s = k a s'.
Proof. intros Hm. unfold mbind, M_bind. by rewrite Hm. Qed.

Lemma bind_Throw {S A B : Type} (m : M S A) (k : A → M S B) (s s' : S) (e : error) :
  m s = (Throw e, s') → (m ≫= k) s = (Throw e, s').
Proof. intros Hm. unfold mbind, M_bind. by rewrite Hm. Qed.

Lemma onAddressBook_get (p : PeerId.t) (this : PeerStore) :
  onAddressBook (Book.get (λ a : list Address, a) (VPeerId p)) this =
  (Ok (Book.data (addressBook this) !! PeerId.toB58String p), this).
Proof.
  destruct this as [ab pb ids]; unfold onAddressBook; simpl.
  destruct ab as [d]; simpl. by rewrite option_fmap_id.
Qed.

Lemma onProtoBook_get (p : PeerId.t) (this : PeerStore) :
  onProtoBook (Book.get Array_from (VPeerId p)) this =
  (Ok (Array_from <$> Book.data (protoBook this) !! PeerId.toB58String p), this).
Proof. destruct this as [ab [d] ids]; reflexivity. Qed.

Lemma onAddressBook_delete (p : PeerId.t) (this : PeerStore) :
  onAddressBook (Book.delete (VPeerId p)) this =
  (Ok (bool_decide (is_Some (Book.data (addressBook this) !! PeerId.toB58String p))),
   {| addressBook := Book.mk (delete (PeerId.toB58String p) (Book.data (addressBook this)));
      protoBook := protoBook this;
      peerIds := peerIds this |}).
Proof.
  destruct this as [[d] pb ids]; unfold onAddressBook; simpl.
  destruct (d !! PeerId.toB58String p) as [a|] eqn:Hd; simpl; [done |].
  by rewrite delete_id.
Qed.

Lemma onProtoBook_delete (p : PeerId.t) (this : PeerStore) :
  onProtoBook (Book.delete (VPeerId p)) this =
  (Ok (bool_decide (is_Some (Book.data (protoBook this) !! PeerId.toB58String p))),
   {| addressBook := addressBook this;
      protoBook := Book.mk (delete (PeerId.toB58String p) (Book.data (protoBook this)));
      peerIds := peerIds this |}).
Proof.
  destruct this as [ab [d] ids]; unfold onProtoBook; simpl.
  destruct (d !! PeerId.toB58String p) as [a|] eqn:Hd; simpl; [done |].
  by rewrite delete_id.
Qed.

(** ** Enumeration: the two passes of [peers] *)

Lemma peers_address_pass (this : PeerStore) (m : gmap string (list Address)) :
  ∃ peersData : gmap string Peer,
    map_fold
      (λ idStr addresses (acc : M PeerStore (gmap string Peer)),
         peersData ← acc;
         let id := PeerId.createFromCID idStr in
         protocols ← onProtoBook (Book.get Array_from (VPeerId id));
         mret (<[idStr := {| id := id;
                             addresses := addresses;
                             protocols := default [] protocols |}]> peersData))
      (mret ∅) m this = (Ok peersData, this)
    ∧ ∀ idStr, peersData !! idStr = fromAddresses this idStr <$> m !! idStr.
Proof.
  apply (map_fold_weak_ind
           (λ (r : M PeerStore (gmap string Peer)) (m : gmap string (list Address)),
              ∃ peersData, r this = (Ok peersData, this)
                ∧ ∀ idStr, peersData !! idStr = fromAddresses this idStr <$> m !! idStr)).
  - exists ∅. split; [done |]. intros idStr. by rewrite !lookup_empty.
  - intros idStr addrs m' r Hfresh (peersData & Hr & Hlook).
    eexists. split.
    + rewrite (bind_Ok _ _ _ _ _ Hr). cbv zeta.
      rewrite (bind_Ok _ _ _ _ _ (onProtoBook_get _ _)). reflexivity.
    + intros k. destruct (decide (idStr = k)) as [->|Hne].
      * by rewrite !lookup_insert_eq.
      * rewrite !lookup_insert_ne by done. apply Hlook.
Qed.

Lemma peers_protocol_pass (this : PeerStore) (start : gmap string Peer)
    (m : gmap string (gset string)) :
  ∃ peersData : gmap string Peer,
    map_fold
      (λ idStr protocols (acc : M PeerStore (gmap string Peer)),
         peersData ← acc;
         match peersData !! idStr with
         | Some pData => mret peersData
         | None =>
             mret (<[idStr := {| id := PeerId.createFromCID idStr;
                                 addresses := [];
                                 protocols := Array_from protocols |}]> peersData)
         end)
      (mret start) m this = (Ok peersData, this)
    ∧ ∀ idStr, peersData !! idStr =
        match start !! idStr with
        | Some pData => Some pData
        | None => fromProtocols idStr <$> m !! idStr
        end.
Proof.
  apply (map_fold_weak_ind
           (λ (r : M PeerStore (gmap string Peer)) (m : gmap string (gset string)),
              ∃ peersData, r this = (Ok peersData, this)
                ∧ ∀ idStr, peersData !! idStr =
                    match start !! idStr with
                    | Some pData => Some pData
                    | None => fromProtocols idStr <$> m !! idStr
                    end)).
  - exists start. split; [done |]. intros idStr.
    rewrite lookup_empty. by destruct (start !! idStr).
  - intros idStr protos m' r Hfresh (peersData & Hr & Hlook).
    destruct (peersData !! idStr) as [pData|] eqn:Hhere.
    + exists peersData. split.
      * rewrite (bind_Ok _ _ _ _ _ Hr). by rewrite Hhere.
      * intros k. rewrite Hlook. destruct (start !! k) eqn:Hk; [done |].
        destruct (decide (idStr = k)) as [->|Hne].
        -- rewrite Hlook, Hk, Hfresh in Hhere. done.
        -- by rewrite lookup_insert_ne.
    + eexists. split.
      * rewrite (bind_Ok _ _ _ _ _ Hr). rewrite Hhere. reflexivity.
      * intros k. destruct (decide (idStr = k)) as [->|Hne].
        -- rewrite !lookup_insert_eq. rewrite Hlook in Hhere.
           by destruct (start !! k).
        -- rewrite !lookup_insert_ne by done. apply Hlook.
Qed.

(** C1. For every state of the two books, [peers] returns, without changing
    the store, a map whose keys are exactly the string encodings present in at
    least one book, built by the two-pass merge: an address-book entry gives a
    record with that entry's addresses and the protocol book's entry for the
    identifier (empty when there is none); a protocol-book entry whose
    identifier has no address-book entry gives a record with an empty address
    list. *)
Theorem peers_two_pass_merge (this : PeerStore) :
  ∃ peersData : gmap string Peer,
    PeerStoreOps.peers this = (Ok peersData, this)
    ∧ dom peersData =
        dom (Book.data (addressBook this)) ∪ dom (Book.data (protoBook this))
    ∧ ∀ idStr, peersData !! idStr =
        match Book.data (addressBook this) !! idStr,
              Book.data (protoBook this) !! idStr with
        | Some addrs, protos =>
            Some {| id := PeerId.createFromCID idStr;
                    addresses := addrs;
                    protocols := default [] (Array_from <$> protos) |}
        | None, Some protos =>
            Some {| id := PeerId.createFromCID idStr;
                    addresses := [];
                    protocols := Array_from protos |}
        | None, None => None
        end.
Proof.
  destruct (peers_address_pass this (Book.data (addressBook this)))
    as (pd1 & Hpass1 & Hlook1).
  destruct (peers_protocol_pass this pd1 (Book.data (protoBook this)))
    as (pd2 & Hpass2 & Hlook2).
  assert (Hall : ∀ idStr, pd2 !! idStr =
        match Book.data (addressBook this) !! idStr,
              Book.data (protoBook this) !! idStr with
        | Some addrs, protos =>
            Some {| id := PeerId.createFromCID idStr;
                    addresses := addrs;
                    protocols := default [] (Array_from <$> protos) |}
        | None, Some protos =>
            Some {| id := PeerId.createFromCID idStr;
                    addresses := [];
                    protocols := Array_from protos |}
        | None, None => None
        end).
  { intros idStr. rewrite Hlook2, Hlook1.
    destruct (Book.data (addressBook this) !! idStr) as [addrs|]; simpl; [done |].
    by destruct (Book.data (protoBook this) !! idStr). }
  exists pd2. split; [| split; [| exact Hall]].
  - unfold PeerStoreOps.peers. rewrite (bind_Ok _ _ _ _ _ Hpass1). exact Hpass2.
  - apply set_eq. intros idStr.
    rewrite elem_of_union, !elem_of_dom, Hall.
    destruct (Book.data (addressBook this) !! idStr),
      (Book.data (protoBook this) !! idStr); split; intros H;
      try (by eauto); by destruct H as [[? [=]]|[? [=]]].
Qed.

(** ** Lookup and removal *)

Lemma delete_run (p : PeerId.t) (this : PeerStore) :
  PeerStoreOps.delete (VPeerId p) this =
  (Ok (bool_decide (is_Some (Book.data (addressBook this) !! PeerId.toB58String p))
       || bool_decide (is_Some (Book.data (protoBook this) !! PeerId.toB58String p))),
   without (PeerId.toB58String p) this).
Proof.
  unfold PeerStoreOps.delete.
  rewrite (bind_Ok _ _ _ _ _ (onAddressBook_delete p this)).
  rewrite (bind_Ok _ _ _ _ _ (onProtoBook_delete p _)).
  reflexivity.
Qed.

Lemma get_run (p : PeerId.t) (this : PeerStore) :
  PeerStoreOps.get (VPeerId p) this =
  (Ok match Book.data (addressBook this) !! PeerId.toB58String p,
            Book.data (protoBook this) !! PeerId.toB58String p with
      | None, None => None
      | addrs, protos =>
          Some {| id := default p (peerIds this !! PeerId.toB58String p);
                  addresses := default [] addrs;
                  protocols := default [] (Array_from <$> protos) |}
      end, this).
Proof.
  unfold PeerStoreOps.get.
  rewrite (bind_Ok _ _ _ _ _ (onAddressBook_get p this)).
  rewrite (bind_Ok _ _ _ _ _ (onProtoBook_get p this)).
  destruct (Book.data (addressBook this) !! PeerId.toB58String p);
    destruct (Book.data (protoBook this) !! PeerId.toB58String p); reflexivity.
Qed.

(** C2. For every identifier, [delete] removes its entry from both books and
    returns true exactly when at least one of the two books had an entry for
    it (so also when only the protocol book had one); a [get] of the same
    identifier afterwards returns the absent result. *)
Theorem delete_either_book (this : PeerStore) (p : PeerId.t) :
  ∃ (removed : bool) (this' : PeerStore),
    PeerStoreOps.delete (VPeerId p) this = (Ok removed, this')
    ∧ Book.data (addressBook this') =
        delete (PeerId.toB58String p) (Book.data (addressBook this))
    ∧ Book.data (protoBook this') =
        delete (PeerId.toB58String p) (Book.data (protoBook this))
    ∧ (removed = true ↔
         is_Some (Book.data (addressBook this) !! PeerId.toB58String p)
         ∨ is_Some (Book.data (protoBook this) !! PeerId.toB58String p))
    ∧ PeerStoreOps.get (VPeerId p) this' = (Ok None, this').
Proof.
  eexists _, _. split; [apply delete_run |].
  split; [done |]. split; [done |]. split.
  - rewrite orb_true_iff, !bool_decide_eq_true. done.
  - rewrite get_run. simpl. by rewrite !lookup_delete_eq.
Qed.

(** C3. For every well-formed identifier, [get] returns the absent result
    exactly when neither book has an entry for it, and otherwise a record
    holding whichever of the address list and the protocol list exists, the
    missing side being the empty list; the store is left as it was. *)
Theorem get_absent_or_record (this : PeerStore) (p : PeerId.t) :
  ∃ found : option Peer,
    PeerStoreOps.get (VPeerId p) this = (Ok found, this)
    ∧ (found = None ↔
         Book.data (addressBook this) !! PeerId.toB58String p = None
         ∧ Book.data (protoBook this) !! PeerId.toB58String p = None)
    ∧ found =
        match Book.data (addressBook this) !! PeerId.toB58String p,
              Book.data (protoBook this) !! PeerId.toB58String p with
        | None, None => None
        | addrs, protos =>
            Some {| id := default p (peerIds this !! PeerId.toB58String p);
                    addresses := default [] addrs;
                    protocols := default [] (Array_from <$> protos) |}
        end.
Proof.
  eexists. split; [apply get_run |]. split; [| done].
  destruct (Book.data (addressBook this) !! PeerId.toB58String p);
    destruct (Book.data (protoBook this) !! PeerId.toB58String p);
    split; try done; by intros [? ?].
Qed.

(** C4. For every argument that is not a Peer Identifier, [get] throws the
    invalid-parameters error and leaves the store, both books included, as it
    was. *)
Theorem get_invalid_argument (this : PeerStore) (peerId : value) :
  isPeerId peerId = false →
  PeerStoreOps.get peerId this = (Throw ERR_INVALID_PARAMETERS, this).
Proof. intros Hno. by destruct peerId. Qed.

(** C10. [delete] reports prior presence and removes the identifier's entry
    from both books, so deleting the same identifier again returns false and
    leaves the store, hence both books, unchanged. *)
Theorem delete_idempotent (this : PeerStore) (p : PeerId.t) :
  ∃ (removed : bool) (this' : PeerStore),
    PeerStoreOps.delete (VPeerId p) this = (Ok removed, this')
    ∧ (removed = true ↔
         is_Some (Book.data (addressBook this) !! PeerId.toB58String p)
         ∨ is_Some (Book.data (protoBook this) !! PeerId.toB58String p))
    ∧ Book.data (addressBook this') =
        delete (PeerId.toB58String p) (Book.data (addressBook this))
    ∧ Book.data (protoBook this') =
        delete (PeerId.toB58String p) (Book.data (protoBook this))
    ∧ Book.data (addressBook this') !! PeerId.toB58String p = None
    ∧ Book.data (protoBook this') !! PeerId.toB58String p = None
    ∧ PeerStoreOps.delete (VPeerId p) this' = (Ok false, this').
Proof.
  eexists _, _. split; [apply delete_run |].
  split; [by rewrite orb_true_iff, !bool_decide_eq_true |].
  split; [done |]. split; [done |].
  unfold without; simpl.
  split; [apply lookup_delete_eq |]. split; [apply lookup_delete_eq |].
  rewrite delete_run. unfold without; simpl.
  rewrite !lookup_delete_eq, !delete_delete_eq.
  rewrite !bool_decide_eq_false_2 by apply is_Some_None. done.
Qed.

Lemma get_invalid_argument_witness :
  isPeerId (VString "QmX") = false
  ∧ PeerStoreOps.get (VString "QmX") Fixtures.directory =
      (Throw ERR_INVALID_PARAMETERS, Fixtures.directory).
Proof.
  split; [reflexivity |].
  apply (get_invalid_argument Fixtures.directory (VString "QmX")). reflexivity.
Defined.

(** ** The directory of the fixtures *)

(** [peers] gives a record for [QmX] with no protocols and one for [QmY]
    with no addresses. *)
Example peers_directory :
  PeerStoreOps.peers Fixtures.directory =
  (Ok {[ "QmX" := {| id := PeerId.mk "QmX";
                     addresses := [ {| multiaddr := Fixtures.ma |} ];
                     protocols := [] |};
         "QmY" := {| id := PeerId.mk "QmY";
                     addresses := [];
                     protocols := [ "/ipfs/id/1.0.0" ] |} ]},
   Fixtures.directory).
Proof. vm_compute. reflexivity. Qed.

(** Deleting [QmY], known by protocol only, reports a removal, after which
    [QmY] is not found. *)
Example delete_protocol_only :
  ∃ this', PeerStoreOps.delete (VPeerId (PeerId.mk "QmY")) Fixtures.directory =
             (Ok true, this')
           ∧ PeerStoreOps.get (VPeerId (PeerId.mk "QmY")) this' = (Ok None, this').
Proof. eexists. split; vm_compute; reflexivity. Qed.

(** A peer known by address only is found, with an empty protocol list,
    which is not the absent result. *)
Example get_address_only :
  PeerStoreOps.get (VPeerId (PeerId.mk "QmX")) Fixtures.directory =
  (Ok (Some {| id := PeerId.mk "QmX";
               addresses := [ {| multiaddr := Fixtures.ma |} ];
               protocols := [] |}),
   Fixtures.directory).
Proof. vm_compute. reflexivity. Qed.

(** A peer known with no data is found, with empty lists; an unknown peer
    is not found. *)
Example get_known_without_data :
  PeerStoreOps.get (VPeerId (PeerId.mk "QmE")) Fixtures.directoryWithEmptyEntry =
    (Ok (Some {| id := PeerId.mk "QmE"; addresses := []; protocols := [] |}),
     Fixtures.directoryWithEmptyEntry)
  ∧ PeerStoreOps.get (VPeerId (PeerId.mk "QmZ")) Fixtures.directoryWithEmptyEntry =
    (Ok None, Fixtures.directoryWithEmptyEntry).
Proof. split; vm_compute; reflexivity. Qed.

(** [delete] hands a malformed identifier to the address book, which
    rejects it before anything is removed. *)
Example delete_malformed :
  PeerStoreOps.delete VUndefined Fixtures.directory =
  (Throw ERR_INVALID_PARAMETERS, Fixtures.directory).
Proof. reflexivity. Qed.

(** * Properties of the self address manager *)

Module AddressManagerFacts.
Import AddressManager.

Lemma endsWithPeerId_encapsulate (ma : Multiaddr) (p : PeerId.t) :
  endsWithPeerId (encapsulate ma p) p = true.
Proof.
  unfold endsWithPeerId, encapsulate.
  apply bool_decide_eq_true_2, last_snoc.
Qed.

(** Appending the own identity does not change what an address strips to. *)
Lemma stripPeerId_encapsulate (ma : Multiaddr) (p : PeerId.t) :
  stripPeerId (encapsulate ma p) p = stripPeerId ma p.
Proof.
  unfold encapsulate. induction ma as [|c rest IH]; simpl.
  - by rewrite bool_decide_eq_true_2.
  - by rewrite IH.
Qed.

(** An address that does not end with the own identity is left as it is. *)
Lemma stripPeerId_plain (ma : Multiaddr) (p : PeerId.t) :
  endsWithPeerId ma p = false → stripPeerId ma p = ma.
Proof.
  unfold endsWithPeerId. rewrite bool_decide_eq_false.
  induction ma as [|c rest IH]; intros Hplain; [done |].
  simpl. destruct rest as [|c' rest'].
  - simpl. rewrite bool_decide_eq_false_2; [done |].
    intros ->. by apply Hplain.
  - rewrite IH by exact Hplain. done.
Qed.

(** What is left after stripping does not end with the own identity. *)
Lemma stripPeerId_clean (ma : Multiaddr) (p : PeerId.t) :
  endsWithPeerId (stripPeerId ma p) p = false.
Proof.
  unfold endsWithPeerId. apply bool_decide_eq_false.
  induction ma as [|c rest IH]; simpl; [done |].
  destruct (stripPeerId rest p) as [|c' kept] eqn:Hrest.
  - case_bool_decide as Hc; simpl; [done |]. by intros [= ->].
  - exact IH.
Qed.

Lemma addObservedAddr_known (addr : Multiaddr) (am : DefaultAddressManager) :
  stripPeerId addr (peerId (components am)) ∈ observed am →
  addObservedAddr addr am = am.
Proof. intros Hin. unfold addObservedAddr. by rewrite bool_decide_eq_true_2. Qed.

Lemma confirmObservedAddr_known (addr : Multiaddr) (am : DefaultAddressManager) :
  stripPeerId addr (peerId (components am)) ∈ confirmed am →
  confirmObservedAddr addr am = am.
Proof. intros Hin. unfold confirmObservedAddr. by rewrite bool_decide_eq_true_2. Qed.

Lemma addObservedAddr_observed (addr : Multiaddr) (am : DefaultAddressManager) :
  observed (addObservedAddr addr am) =
  if bool_decide (stripPeerId addr (peerId (components am)) ∈ observed am)
  then observed am
  else observed am ++ [stripPeerId addr (peerId (components am))].
Proof. unfold addObservedAddr. by case_bool_decide. Qed.

Lemma confirmObservedAddr_confirmed (addr : Multiaddr) (am : DefaultAddressManager) :
  confirmed (confirmObservedAddr addr am) =
  if bool_decide (stripPeerId addr (peerId (components am)) ∈ confirmed am)
  then confirmed am
  else confirmed am ++ [stripPeerId addr (peerId (components am))].
Proof. unfold confirmObservedAddr. by case_bool_decide. Qed.

Lemma confirmObservedAddr_dispatched (addr : Multiaddr) (am : DefaultAddressManager) :
  dispatched (confirmObservedAddr addr am) =
  if bool_decide (stripPeerId addr (peerId (components am)) ∈ confirmed am)
  then dispatched am
  else dispatched am ++ [change_addresses].
Proof. unfold confirmObservedAddr. by case_bool_decide. Qed.

(** No call touches the construction-time part of the manager. *)
Lemma step_static (am : DefaultAddressManager) (c : call) :
  components (step am c) = components am
  ∧ listen (step am c) = listen am
  ∧ announce (step am c) = announce am
  ∧ announceFilter (step am c) = announceFilter am.
Proof.
  destruct c; simpl; try done.
  - unfold addObservedAddr. by case_bool_decide.
  - unfold confirmObservedAddr. by case_bool_decide.
Qed.

Lemma run_static (cs : list call) (am : DefaultAddressManager) :
  components (run am cs) = components am
  ∧ listen (run am cs) = listen am
  ∧ announce (run am cs) = announce am
  ∧ announceFilter (run am cs) = announceFilter am.
Proof.
  revert am. induction cs as [|c cs IH]; intros am; [done |].
  unfold run in *. simpl.
  destruct (IH (step am c)) as (-> & -> & -> & ->). apply step_static.
Qed.

Lemma step_grows (am : DefaultAddressManager) (c : call) :
  observed am ⊆ observed (step am c) ∧ confirmed am ⊆ confirmed (step am c).
Proof.
  destruct c; simpl; try done.
  - rewrite addObservedAddr_observed. unfold addObservedAddr.
    case_bool_decide; simpl; split; try done.
    intros ma Hma. apply elem_of_app. by left.
  - rewrite confirmObservedAddr_confirmed. unfold confirmObservedAddr.
    case_bool_decide; simpl; split; try done.
    intros ma Hma. apply elem_of_app. by left.
Qed.

(** ** Observed addresses *)

(** C7, as stated, fails for an address that already ends with the
    manager's own identity: what is stored is its stripped form, so the
    address itself is not among the observed ones. *)
Lemma observed_thrice_suffixed :
  ¬ (length (getObservedAddrs
               (addObservedAddr (encapsulate Fixtures.ma Fixtures.self)
                  (addObservedAddr (encapsulate Fixtures.ma Fixtures.self)
                     (addObservedAddr (encapsulate Fixtures.ma Fixtures.self)
                        (new Fixtures.idle Fixtures.noConfig))))) = 1
     ∧ encapsulate Fixtures.ma Fixtures.self
         ∈ getObservedAddrs
             (addObservedAddr (encapsulate Fixtures.ma Fixtures.self)
                (addObservedAddr (encapsulate Fixtures.ma Fixtures.self)
                   (addObservedAddr (encapsulate Fixtures.ma Fixtures.self)
                      (new Fixtures.idle Fixtures.noConfig))))).
Proof.
  intros [_ Hin]. vm_compute in Hin.
  apply list_elem_of_singleton in Hin. discriminate Hin.
Qed.

Lemma addObservedAddr_idempotent (a : Multiaddr) (am : DefaultAddressManager) :
  addObservedAddr a (addObservedAddr a am) = addObservedAddr a am.
Proof.
  apply addObservedAddr_known.
  unfold addObservedAddr at 1 2. case_bool_decide as Hin; simpl; [done |].
  apply elem_of_app. right. by apply list_elem_of_singleton.
Qed.

Lemma addObservedAddr_thrice (comps : Components) (init : Init.t) (a : Multiaddr) :
  getObservedAddrs
    (addObservedAddr a (addObservedAddr a (addObservedAddr a (new comps init))))
  = [stripPeerId a (peerId comps)].
Proof.
  rewrite !addObservedAddr_idempotent.
  unfold getObservedAddrs. by rewrite addObservedAddr_observed.
Qed.

(** C7, amended. Adding an address three times to a fresh manager leaves
    exactly one observed address, the stripped form of the one added: an
    addition inserts the stripped form only if no equal value is present
    already, so adding the same address again changes nothing. *)
Theorem observed_thrice (comps : Components) (init : Init.t) (a : Multiaddr) :
  getObservedAddrs
    (addObservedAddr a (addObservedAddr a (addObservedAddr a (new comps init))))
  = [stripPeerId a (peerId comps)]
  ∧ (∀ am : DefaultAddressManager,
       getObservedAddrs (addObservedAddr a am) =
       if bool_decide (stripPeerId a (peerId (components am)) ∈ observed am)
       then observed am
       else observed am ++ [stripPeerId a (peerId (components am))])
  ∧ (∀ am : DefaultAddressManager,
       addObservedAddr a (addObservedAddr a am) = addObservedAddr a am).
Proof.
  split; [apply addObservedAddr_thrice |].
  split; [apply addObservedAddr_observed | apply addObservedAddr_idempotent].
Qed.

(** An address that does not end with the manager's own identity is stored
    as it is. *)
Lemma observed_thrice_plain (comps : Components) (init : Init.t) (a : Multiaddr) :
  endsWithPeerId a (peerId comps) = false →
  getObservedAddrs
    (addObservedAddr a (addObservedAddr a (addObservedAddr a (new comps init))))
  = [a].
Proof.
  intros Hplain. rewrite addObservedAddr_thrice. by rewrite stripPeerId_plain.
Qed.

(** The test "should strip our peer address from added observed addresses":
    an address and then the same address with the own identity appended
    leave one observed address. *)
Lemma observed_then_suffixed (comps : Components) (init : Init.t) (a : Multiaddr) :
  endsWithPeerId a (peerId comps) = false →
  getObservedAddrs
    (addObservedAddr (encapsulate a (peerId comps))
       (addObservedAddr a (new comps init)))
  = [a].
Proof.
  intros Hplain. unfold getObservedAddrs.
  rewrite addObservedAddr_known.
  - rewrite addObservedAddr_observed. simpl. by rewrite stripPeerId_plain.
  - rewrite addObservedAddr_observed. simpl.
    rewrite stripPeerId_encapsulate, stripPeerId_plain by done.
    by apply list_elem_of_singleton.
Qed.

(** ** Confirmed addresses and their notification *)

Lemma confirmObservedAddr_idempotent (a : Multiaddr) (am : DefaultAddressManager) :
  confirmObservedAddr a (confirmObservedAddr a am) = confirmObservedAddr a am.
Proof.
  apply confirmObservedAddr_known.
  unfold confirmObservedAddr at 1 2. case_bool_decide as Hin; simpl; [done |].
  apply elem_of_app. right. by apply list_elem_of_singleton.
Qed.

Lemma confirmObservedAddr_same_value (a a' : Multiaddr) (am : DefaultAddressManager) :
  stripPeerId a (peerId (components am)) = stripPeerId a' (peerId (components am)) →
  confirmObservedAddr a' (confirmObservedAddr a am) = confirmObservedAddr a am.
Proof.
  intros Hsame. apply confirmObservedAddr_known.
  destruct (step_static am (ConfirmObservedAddr a)) as [Hcomps _].
  simpl in Hcomps. rewrite Hcomps, <- Hsame, confirmObservedAddr_confirmed.
  case_bool_decide as Hin; [done |].
  apply elem_of_app. right. by apply list_elem_of_singleton.
Qed.

Lemma eventCount_confirmObservedAddr (a : Multiaddr) (am : DefaultAddressManager) :
  eventCount (confirmObservedAddr a am) =
  eventCount am
  + (if bool_decide (stripPeerId a (peerId (components am)) ∈ confirmed am)
     then 0 else 1).
Proof.
  unfold eventCount. rewrite confirmObservedAddr_dispatched.
  case_bool_decide; [lia |]. rewrite length_app. simpl. lia.
Qed.

(** C5. For every address, three confirmations of it followed by one of
    the address with the own identity appended, on a fresh manager, dispatch
    exactly one notification.  In every state a confirmation dispatches one
    notification when its stripped value was not confirmed before and none
    otherwise, so confirming again a value that strips to the same one
    dispatches nothing. *)
Theorem confirm_notifies_once (comps : Components) (init : Init.t) (a : Multiaddr) :
  eventCount
    (confirmObservedAddr (encapsulate a (peerId comps))
       (confirmObservedAddr a
          (confirmObservedAddr a
             (confirmObservedAddr a (new comps init)))))
  = 1
  ∧ (∀ (am : DefaultAddressManager) (addr : Multiaddr),
       eventCount (confirmObservedAddr addr am) =
       eventCount am
       + (if bool_decide (stripPeerId addr (peerId (components am)) ∈ confirmed am)
          then 0 else 1))
  ∧ (∀ (am : DefaultAddressManager) (addr addr' : Multiaddr),
       stripPeerId addr (peerId (components am))
       = stripPeerId addr' (peerId (components am)) →
       eventCount (confirmObservedAddr addr' (confirmObservedAddr addr am))
       = eventCount (confirmObservedAddr addr am)).
Proof.
  split; [| split].
  - rewrite !confirmObservedAddr_idempotent.
    rewrite confirmObservedAddr_same_value.
    + by rewrite eventCount_confirmObservedAddr.
    + simpl. by rewrite stripPeerId_encapsulate.
  - intros am addr. apply eventCount_confirmObservedAddr.
  - intros am addr addr' Hsame. by rewrite confirmObservedAddr_same_value.
Qed.

(** The test "should only emit one change:addresses event", and the same
    calls on an address that carries the own identity already. *)
Lemma confirm_notifies_once_witness :
  eventCount
    (confirmObservedAddr (encapsulate Fixtures.ma Fixtures.self)
       (confirmObservedAddr Fixtures.ma
          (confirmObservedAddr Fixtures.ma
             (confirmObservedAddr Fixtures.ma
                (new Fixtures.idle Fixtures.noConfig)))))
  = 1
  ∧ eventCount
      (confirmObservedAddr
         (encapsulate (encapsulate Fixtures.ma Fixtures.self) Fixtures.self)
         (confirmObservedAddr (encapsulate Fixtures.ma Fixtures.self)
            (confirmObservedAddr (encapsulate Fixtures.ma Fixtures.self)
               (confirmObservedAddr (encapsulate Fixtures.ma Fixtures.self)
                  (new Fixtures.idle Fixtures.noConfig)))))
    = 1.
Proof.
  split.
  - eapply proj1.
    apply (confirm_notifies_once Fixtures.idle Fixtures.noConfig Fixtures.ma).
  - eapply proj1.
    apply (confirm_notifies_once Fixtures.idle Fixtures.noConfig
             (encapsulate Fixtures.ma Fixtures.self)).
Defined.

(** ** The observed and confirmed sets over the life of a manager *)

Lemma addObservedAddr_confirmed (addr : Multiaddr) (am : DefaultAddressManager) :
  confirmed (addObservedAddr addr am) = confirmed am.
Proof. unfold addObservedAddr. by case_bool_decide. Qed.

Lemma confirmObservedAddr_observed (addr : Multiaddr) (am : DefaultAddressManager) :
  observed (confirmObservedAddr addr am) = observed am.
Proof. unfold confirmObservedAddr. by case_bool_decide. Qed.

Lemma run_grows (cs : list call) (am : DefaultAddressManager) :
  observed am ⊆ observed (run am cs) ∧ confirmed am ⊆ confirmed (run am cs).
Proof.
  revert am. induction cs as [|c cs IH]; intros am; [done |].
  destruct (step_grows am c) as [Hobs Hconf].
  destruct (IH (step am c)) as [Hobs' Hconf'].
  unfold run in *. simpl. split; by etrans.
Qed.

Lemma step_stripped (am : DefaultAddressManager) (c : call) :
  stripped (peerId (components am)) am →
  stripped (peerId (components am)) (step am c).
Proof.
  intros Hinv. destruct c as [| | |a|a]; simpl; try done.
  - intros addr. rewrite addObservedAddr_observed, addObservedAddr_confirmed.
    case_bool_decide; [apply Hinv |].
    rewrite elem_of_app, list_elem_of_singleton.
    intros [[Hold| ->]|Hold];
      [apply Hinv; by left | apply stripPeerId_clean | apply Hinv; by right].
  - intros addr. rewrite confirmObservedAddr_observed, confirmObservedAddr_confirmed.
    case_bool_decide; [apply Hinv |].
    rewrite elem_of_app, list_elem_of_singleton.
    intros [Hold|[Hold| ->]];
      [apply Hinv; by left | apply Hinv; by right | apply stripPeerId_clean].
Qed.

Lemma run_stripped (cs : list call) (am : DefaultAddressManager) :
  stripped (peerId (components am)) am →
  stripped (peerId (components am)) (run am cs).
Proof.
  revert am. induction cs as [|c cs IH]; intros am Hinv; [done |].
  destruct (step_static am c) as [Hcomps _].
  unfold run in *. simpl. rewrite <- Hcomps. apply IH.
  rewrite Hcomps. by apply step_stripped.
Qed.

(** C6. In every state reached from a fresh manager, whatever the calls,
    neither the observed nor the confirmed set contains an address whose
    trailing component is the local Peer Identifier, since both
    [addObservedAddr] and [confirmObservedAddr] store the stripped address;
    and the two sets only grow: no call removes an element from them. *)
Theorem observed_confirmed_invariant
    (comps : Components) (init : Init.t) (cs : list call) :
  (∀ addr,
     addr ∈ observed (run (new comps init) cs)
     ∨ addr ∈ confirmed (run (new comps init) cs) →
     endsWithPeerId addr (peerId comps) = false)
  ∧ (∀ (am : DefaultAddressManager) (c : call),
       observed am ⊆ observed (step am c) ∧ confirmed am ⊆ confirmed (step am c))
  ∧ (∀ (am : DefaultAddressManager) (cs' : list call),
       observed am ⊆ observed (run am cs') ∧ confirmed am ⊆ confirmed (run am cs')).
Proof.
  split; [| split].
  - apply (run_stripped cs (new comps init)).
    intros addr [Hin|Hin]; simpl in Hin; by apply not_elem_of_nil in Hin.
  - apply step_grows.
  - intros am cs'. apply run_grows.
Qed.

(** A run in which the own identity arrives once, twice and not at all. *)
Lemma observed_confirmed_invariant_witness :
  observed (run (new Fixtures.idle Fixtures.noConfig) Fixtures.calls) = [Fixtures.ma]
  ∧ confirmed (run (new Fixtures.idle Fixtures.noConfig) Fixtures.calls) = [Fixtures.ma]
  ∧ ∀ addr,
      addr ∈ observed (run (new Fixtures.idle Fixtures.noConfig) Fixtures.calls)
      ∨ addr ∈ confirmed (run (new Fixtures.idle Fixtures.noConfig) Fixtures.calls) →
      endsWithPeerId addr (peerId Fixtures.idle) = false.
Proof.
  split; [reflexivity |]. split; [reflexivity |].
  eapply proj1.
  apply (observed_confirmed_invariant Fixtures.idle Fixtures.noConfig Fixtures.calls).
Defined.

(** ** Listen and announce addresses *)

Lemma getAnnounceAddrs_run (am : DefaultAddressManager) (cs : list call) :
  getAnnounceAddrs (run am cs) = getAnnounceAddrs am.
Proof.
  unfold getAnnounceAddrs.
  by destruct (run_static cs am) as (_ & _ & -> & ->).
Qed.

Lemma getAnnounceAddrs_configured (comps : Components) (init : Init.t) :
  default [] (Init.announce init) ≠ [] →
  getAnnounceAddrs (new comps init) =
  filter (Init.announceFilter init) (default [] (Init.announce init)).
Proof.
  intros _. reflexivity.
Qed.

(** C8. When a non-empty announce list is configured, [getAnnounceAddrs]
    returns, in every state of the manager, that list passed through the
    Address Filter: a sublist of the configured announce list, in its order,
    and the same whatever the listen configuration and the transports are. *)
Theorem announce_filtered (comps : Components) (init : Init.t) (cs : list call) :
  default [] (Init.announce init) ≠ [] →
  getAnnounceAddrs (run (new comps init) cs) =
    filter (Init.announceFilter init) (default [] (Init.announce init))
  ∧ getAnnounceAddrs (run (new comps init) cs)
      `sublist_of` default [] (Init.announce init)
  ∧ ∀ (comps' : Components) (listen' : option (list Multiaddr)) (cs' : list call),
      getAnnounceAddrs
        (run (new comps' {| Init.listen := listen';
                            Init.announce := Init.announce init;
                            Init.announceFilter := Init.announceFilter init |}) cs')
      = getAnnounceAddrs (run (new comps init) cs).
Proof.
  intros Hsome.
  rewrite getAnnounceAddrs_run, (getAnnounceAddrs_configured _ _ Hsome).
  split; [done |]. split; [apply filter_sublist |].
  intros comps' listen' cs'.
  rewrite getAnnounceAddrs_run.
  exact (getAnnounceAddrs_configured comps'
           {| Init.listen := listen';
              Init.announce := Init.announce init;
              Init.announceFilter := Init.announceFilter init |} Hsome).
Qed.

Lemma announce_filtered_witness :
  default [] (Init.announce Fixtures.listenAndAnnounce) ≠ []
  ∧ getAnnounceAddrs (run (new Fixtures.listening Fixtures.listenAndAnnounce)
                        [AddObservedAddr Fixtures.ma])
      `sublist_of` Fixtures.announceAddreses.
Proof.
  split; [discriminate |].
  eapply proj1. eapply proj2.
  apply (announce_filtered Fixtures.listening Fixtures.listenAndAnnounce
           [AddObservedAddr Fixtures.ma]).
  discriminate.
Defined.

(** The test "should return announce multiaddrs on get", with the identity
    filter. *)
Example announce_of_fixture :
  getListenAddrs (new Fixtures.idle Fixtures.listenAndAnnounce)
    = Fixtures.listenAddresses
  ∧ getAnnounceAddrs (new Fixtures.idle Fixtures.listenAndAnnounce)
    = Fixtures.announceAddreses.
Proof. split; reflexivity. Qed.




(** The listen addresses of the fixtures come back as configured, with no
    announce address beside them. *)
Example listen_of_fixture :
  getListenAddrs
    (new Fixtures.idle
       {| Init.listen := Some Fixtures.listenAddresses;
          Init.announce := None;
          Init.announceFilter := defaultAddressFilter |})
    = Fixtures.listenAddresses
  ∧ getAnnounceAddrs
      (new Fixtures.idle
         {| Init.listen := Some Fixtures.listenAddresses;
            Init.announce := None;
            Init.announceFilter := defaultAddressFilter |})
    = [].
Proof. split; reflexivity. Qed.

End AddressManagerFacts.

(** * The operations of the peer directory together *)

Module PeerStoreFacts.

Lemma peers_run (this : PeerStore) :
  ∃ peersData : gmap string Peer,
    PeerStoreOps.peers this = (Ok peersData, this)
    ∧ ∀ idStr, peersData !! idStr = listed this idStr.
Proof.
  destruct (peers_address_pass this (Book.data (addressBook this)))
    as (pd1 & Hpass1 & Hlook1).
  destruct (peers_protocol_pass this pd1 (Book.data (protoBook this)))
    as (pd2 & Hpass2 & Hlook2).
  exists pd2. split.
  - unfold PeerStoreOps.peers. rewrite (bind_Ok _ _ _ _ _ Hpass1). exact Hpass2.
  - intros idStr. rewrite Hlook2, Hlook1. unfold listed.
    by destruct (Book.data (addressBook this) !! idStr).
Qed.

Lemma listed_is_Some (this : PeerStore) (idStr : string) :
  is_Some (listed this idStr) ↔
  is_Some (Book.data (addressBook this) !! idStr)
  ∨ is_Some (Book.data (protoBook this) !! idStr).
Proof.
  unfold listed.
  destruct (Book.data (addressBook this) !! idStr) as [addrs|].
  - split; [intros _; left; by eexists | intros _; by eexists].
  - rewrite fmap_is_Some. split; [by right | intros [[? [=]]|?]; done].
Qed.

Lemma listed_without (this : PeerStore) (idStr k : string) :
  listed (without idStr this) k =
  if decide (idStr = k) then None else listed this k.
Proof.
  unfold listed, without, fromAddresses. simpl.
  case_decide as Hk.
  - subst. by rewrite !lookup_delete_eq.
  - by rewrite !lookup_delete_ne.
Qed.

Lemma peers_dom (this : PeerStore) (peersData : gmap string Peer) :
  (∀ idStr, peersData !! idStr = listed this idStr) →
  dom peersData = dom (Book.data (addressBook this)) ∪ dom (Book.data (protoBook this)).
Proof.
  intros Hlook. apply set_eq. intros idStr.
  by rewrite elem_of_union, !elem_of_dom, Hlook, listed_is_Some.
Qed.

(** X1. Lookup and enumeration agree: [get] finds a peer exactly when
    [peers] has a record under the peer's string encoding, and then both
    carry the same addresses and the same protocols. *)
Theorem get_agrees_with_peers (this : PeerStore) (p : PeerId.t) :
  ∃ (peersData : gmap string Peer) (found : option Peer),
    PeerStoreOps.peers this = (Ok peersData, this)
    ∧ PeerStoreOps.get (VPeerId p) this = (Ok found, this)
    ∧ (is_Some found ↔ is_Some (peersData !! PeerId.toB58String p))
    ∧ addresses <$> found = addresses <$> peersData !! PeerId.toB58String p
    ∧ protocols <$> found = protocols <$> peersData !! PeerId.toB58String p.
Proof.
  destruct (peers_run this) as (peersData & Hpeers & Hlook).
  eexists peersData, _. split; [exact Hpeers |]. split; [apply get_run |].
  rewrite Hlook. unfold listed, fromAddresses, fromProtocols.
  destruct (Book.data (addressBook this) !! PeerId.toB58String p) as [addrs|];
    destruct (Book.data (protoBook this) !! PeerId.toB58String p) as [protos|];
    simpl; split_and!; try done; try (split; intros _; by eexists).
Qed.

(** X2. [delete] touches one peer only: it leaves the kept peer-id instances
    as they are, and a [get] of any identifier with another string encoding
    returns after the deletion what it returned before. *)
Theorem delete_leaves_others (this : PeerStore) (p q : PeerId.t) :
  PeerId.toB58String q ≠ PeerId.toB58String p →
  ∃ (removed : bool) (this' : PeerStore),
    PeerStoreOps.delete (VPeerId p) this = (Ok removed, this')
    ∧ peerIds this' = peerIds this
    ∧ (PeerStoreOps.get (VPeerId q) this').1 = (PeerStoreOps.get (VPeerId q) this).1.
Proof.
  intros Hne. eexists _, _. split; [apply delete_run |]. split; [done |].
  rewrite !get_run. unfold without; simpl.
  by rewrite !lookup_delete_ne.
Qed.

Lemma delete_leaves_others_witness :
  PeerId.toB58String (PeerId.mk "QmX") ≠ PeerId.toB58String (PeerId.mk "QmY")
  ∧ ∃ (removed : bool) (this' : PeerStore),
      PeerStoreOps.delete (VPeerId (PeerId.mk "QmY")) Fixtures.directory
        = (Ok removed, this')
      ∧ peerIds this' = peerIds Fixtures.directory
      ∧ (PeerStoreOps.get (VPeerId (PeerId.mk "QmX")) this').1
        = (PeerStoreOps.get (VPeerId (PeerId.mk "QmX")) Fixtures.directory).1.
Proof.
  split; [discriminate |].
  apply (delete_leaves_others Fixtures.directory (PeerId.mk "QmY") (PeerId.mk "QmX")).
  discriminate.
Defined.

(** X3. [delete] and [peers] fit together: [delete] returns true exactly when
    [peers] listed the identifier before, and [peers] after the deletion is
    [peers] before it with that one key removed. *)
Theorem delete_unlists (this : PeerStore) (p : PeerId.t) :
  ∃ (removed : bool) (this' : PeerStore) (before after : gmap string Peer),
    PeerStoreOps.peers this = (Ok before, this)
    ∧ PeerStoreOps.delete (VPeerId p) this = (Ok removed, this')
    ∧ PeerStoreOps.peers this' = (Ok after, this')
    ∧ (removed = true ↔ is_Some (before !! PeerId.toB58String p))
    ∧ after = delete (PeerId.toB58String p) before.
Proof.
  destruct (peers_run this) as (before & Hbefore & Hlook).
  destruct (peers_run (without (PeerId.toB58String p) this))
    as (after & Hafter & Hlook').
  eexists _, (without (PeerId.toB58String p) this), before, after.
  split; [exact Hbefore |]. split; [apply delete_run |]. split; [exact Hafter |].
  split.
  - by rewrite Hlook, listed_is_Some, orb_true_iff, !bool_decide_eq_true.
  - apply map_eq. intros k. rewrite Hlook', listed_without.
    case_decide as Hk.
    + subst. by rewrite lookup_delete_eq.
    + by rewrite lookup_delete_ne, Hlook.
Qed.

(** X4. [peers] lists every known peer once: the number of its records plus
    the number of identifiers present in both books is the number of
    address-book entries plus the number of protocol-book entries. *)
Theorem peers_size (this : PeerStore) :
  ∃ peersData : gmap string Peer,
    PeerStoreOps.peers this = (Ok peersData, this)
    ∧ size peersData
      + size (dom (Book.data (addressBook this)) ∩ dom (Book.data (protoBook this)))
      = size (Book.data (addressBook this)) + size (Book.data (protoBook this)).
Proof.
  destruct (peers_run this) as (peersData & Hpeers & Hlook).
  exists peersData. split; [exact Hpeers |].
  rewrite <- !size_dom, (peers_dom this peersData Hlook).
  rewrite size_union_alt, size_difference_alt.
  rewrite (comm_L (∩) (dom (Book.data (protoBook this)))).
  assert (size (dom (Book.data (addressBook this)) ∩ dom (Book.data (protoBook this)))
          ≤ size (dom (Book.data (protoBook this))))
    by apply subseteq_size, intersection_subseteq_r.
  lia.
Qed.

(** X5. A freshly constructed directory knows nobody: [peers] is empty, and
    for every identifier [get] returns the absent result and [delete]
    returns false, the directory staying as constructed. *)
Theorem new_knows_nobody (p : PeerId.t) :
  PeerStoreOps.peers PeerStoreOps.new = (Ok ∅, PeerStoreOps.new)
  ∧ PeerStoreOps.get (VPeerId p) PeerStoreOps.new = (Ok None, PeerStoreOps.new)
  ∧ PeerStoreOps.delete (VPeerId p) PeerStoreOps.new = (Ok false, PeerStoreOps.new).
Proof.
  split; [| split].
  - destruct (peers_run PeerStoreOps.new) as (peersData & -> & Hlook).
    f_equal. f_equal. apply map_eq. intros k. by rewrite Hlook, lookup_empty.
  - by rewrite get_run.
  - rewrite delete_run. unfold without; simpl. by rewrite !delete_empty.
Qed.

(** X6. [delete] returns false exactly when it changed nothing: a false
    result leaves the directory as it was, and a true result leaves a
    different one. *)
Theorem delete_false_iff_unchanged (this : PeerStore) (p : PeerId.t) :
  ∃ (removed : bool) (this' : PeerStore),
    PeerStoreOps.delete (VPeerId p) this = (Ok removed, this')
    ∧ (removed = false ↔ this' = this).
Proof.
  eexists _, _. split; [apply delete_run |].
  rewrite orb_false_iff, !bool_decide_eq_false, <- !eq_None_not_Some.
  destruct this as [[ab] [pb] ids]; unfold without; simpl. split.
  - intros [Ha Hp]. by rewrite !delete_id.
  - intros [= Ha Hp]. split.
    + rewrite <- Ha. apply lookup_delete_eq.
    + rewrite <- Hp. apply lookup_delete_eq.
Qed.

(** X7. Deletions commute: deleting two identifiers leaves the same directory
    in either order, and the second deletion returns false if the two have
    the same string encoding and otherwise what it would have returned
    alone. *)
Theorem delete_commutes (this : PeerStore) (p q : PeerId.t) :
  (PeerStoreOps.delete (VPeerId q) (PeerStoreOps.delete (VPeerId p) this).2).2
  = (PeerStoreOps.delete (VPeerId p) (PeerStoreOps.delete (VPeerId q) this).2).2
  ∧ (PeerStoreOps.delete (VPeerId q) (PeerStoreOps.delete (VPeerId p) this).2).1
    = if decide (PeerId.toB58String p = PeerId.toB58String q) then Ok false
      else (PeerStoreOps.delete (VPeerId q) this).1.
Proof.
  rewrite !delete_run. simpl. split.
  - unfold without; simpl. f_equal; f_equal; apply delete_delete.
  - case_decide as Hk.
    + rewrite Hk, !lookup_delete_eq.
      by rewrite !bool_decide_eq_false_2 by apply is_Some_None.
    + by rewrite !lookup_delete_ne.
Qed.

End PeerStoreFacts.
